(** * upb/base/internal/log2.h

    A shallow embedding of the four inline functions of upb's [log2.h]
    ([upb_Log2Ceiling], [upb_Log2CeilingSize], [upb_Log2CTypeSize] and
    [upb_Log2FieldTypeSize]) and the properties its specification states
    about them.

    C's [int] is a 32-bit two's complement integer, carried here as a [Z]
    together with the range check the C standard puts on every signed
    operation: an operation whose mathematical result leaves the range, a
    shift by a count outside [0, 32), [__builtin_clz] of zero and an array
    read past the end are undefined behaviour, which the embedding reports
    as [Undefined] instead of picking a value. *)

From Stdlib Require Import ZArith List Lia Bool.
Import ListNotations.

Local Open Scope Z_scope.

(** ** Outcomes of a C computation *)

Inductive outcome (A : Type) : Type :=
| Ret (a : A)
| Undefined
| OutOfFuel.

Arguments Ret {A} a.
Arguments Undefined {A}.
Arguments OutOfFuel {A}.

Definition bind {A B : Type} (m : outcome A) (k : A -> outcome B) : outcome B :=
  match m with
  | Ret a => k a
  | Undefined => Undefined
  | OutOfFuel => OutOfFuel
  end.

Notation "x <- m ;; k" := (bind m (fun x => k))
  (at level 61, m at next level, right associativity).

(** ** 32-bit [int] and [unsigned int] *)

Module Int.

Definition width : Z := 32.
Definition min_signed : Z := - 2 ^ 31.
Definition max_signed : Z := 2 ^ 31 - 1.
Definition modulus : Z := 2 ^ 32.

Definition in_range (z : Z) : bool :=
  (min_signed <=? z) && (z <=? max_signed).

(** The result of a signed operation: its mathematical value when that
    is representable, undefined behaviour otherwise. *)
Definition checked (z : Z) : outcome Z :=
  if in_range z then Ret z else Undefined.

Definition add (a b : Z) : outcome Z := checked (a + b).
Definition sub (a b : Z) : outcome Z := checked (a - b).

(** [a << n] on [int] (C11 6.5.7): undefined for a negative or too large
    count, for a negative left operand, and when [a * 2^n] is not
    representable. *)
Definition shl (a n : Z) : outcome Z :=
  if (n <? 0) || (width <=? n) then Undefined
  else if a <? 0 then Undefined
  else checked (Z.shiftl a n).

(** Conversion of an [int] to [unsigned int]. *)
Definition to_unsigned (z : Z) : Z := z mod modulus.

(** What two's complement hardware (x86) does where the standard leaves
    the behaviour undefined: results are reduced into the signed range,
    and the shift count is taken modulo the width. *)
Definition wrap (z : Z) : Z :=
  (z + 2 ^ 31) mod modulus - 2 ^ 31.

Definition shl_wrap (a n : Z) : Z := wrap (Z.shiftl a (n mod width)).

End Int.

(** [__builtin_clz (unsigned int)]: the number of leading zero bits of a
    32-bit word, counted from bit 31 downwards; undefined on zero. *)
Fixpoint clz_bits (w : nat) (v : Z) : Z :=
  match w with
  | O => 0
  | S k => if Z.testbit v (Z.of_nat k) then 0 else 1 + clz_bits k v
  end.

Definition builtin_clz (v : Z) : outcome Z :=
  if v =? 0 then Undefined else Ret (clz_bits 32 v).

(** ** upb_Log2Ceiling *)

(** The two bodies between which [#ifdef __GNUC__] chooses. *)
Variant compiler : Type := Gnuc | NonGnuc.

(** [while ((1 << lg2) < x) lg2++;  return lg2;] *)
Fixpoint Log2Ceiling_loop (fuel : nat) (x lg2 : Z) : outcome Z :=
  match fuel with
  | O => OutOfFuel
  | S fuel' =>
      p <- Int.shl 1 lg2 ;;
      if p <? x
      then lg2' <- Int.add lg2 1 ;; Log2Ceiling_loop fuel' x lg2'
      else Ret lg2
  end.

Definition upb_Log2Ceiling (cc : compiler) (fuel : nat) (x : Z) : outcome Z :=
  if x <=? 1 then Ret 0
  else
    match cc with
    | Gnuc =>
        y <- Int.sub x 1 ;;
        c <- builtin_clz (Int.to_unsigned y) ;;
        Int.sub 32 c
    | NonGnuc => Log2Ceiling_loop fuel x 0
    end.

(** Iterations that suffice for the loop on every input it is defined on. *)
Definition loop_fuel : nat := 32.

(** ** upb_Log2CeilingSize *)

Definition upb_Log2CeilingSize (cc : compiler) (fuel : nat) (x : Z) : outcome Z :=
  n <- upb_Log2Ceiling cc fuel x ;; Int.shl 1 n.

(** The loop as the hardware runs it, with wrapping arithmetic in place of
    undefined behaviour. *)
Fixpoint Log2Ceiling_loop_wrap (fuel : nat) (x lg2 : Z) : outcome Z :=
  match fuel with
  | O => OutOfFuel
  | S fuel' =>
      if Int.shl_wrap 1 lg2 <? x
      then Log2Ceiling_loop_wrap fuel' x (Int.wrap (lg2 + 1))
      else Ret lg2
  end.

(** The iterative definition in the spec's words, "an iterative doubling
    search that increments n starting at 0 until 2^n >= x", over unbounded
    integers; the reference the two bodies above are compared with. *)
Fixpoint doubling_search (fuel : nat) (x n : Z) : option Z :=
  match fuel with
  | O => None
  | S fuel' => if x <=? 2 ^ n then Some n else doubling_search fuel' x (n + 1)
  end.

Definition Log2Ceiling_iterative_spec (fuel : nat) (x : Z) : option Z :=
  if x <=? 1 then Some 0 else doubling_search fuel x 0.

(** ** The enumerations and the pointer-width macro *)

(** Modelled from the spec: the enumeration [upb_CType] is declared in
    upb/base/descriptor_constants.h, which is not part of this file.  The
    spec lists its 11 members in this order with 1-based ordinals, and the
    comments of the table in [upb_Log2CTypeSize] name them in the same
    order. *)
Inductive upb_CType : Type :=
| kUpb_CType_Bool
| kUpb_CType_Float
| kUpb_CType_Int32
| kUpb_CType_UInt32
| kUpb_CType_Enum
| kUpb_CType_Message
| kUpb_CType_Double
| kUpb_CType_Int64
| kUpb_CType_UInt64
| kUpb_CType_String
| kUpb_CType_Bytes.

Definition upb_CType_value (c : upb_CType) : Z :=
  match c with
  | kUpb_CType_Bool => 1
  | kUpb_CType_Float => 2
  | kUpb_CType_Int32 => 3
  | kUpb_CType_UInt32 => 4
  | kUpb_CType_Enum => 5
  | kUpb_CType_Message => 6
  | kUpb_CType_Double => 7
  | kUpb_CType_Int64 => 8
  | kUpb_CType_UInt64 => 9
  | kUpb_CType_String => 10
  | kUpb_CType_Bytes => 11
  end.

Definition upb_CType_all : list upb_CType :=
  [ kUpb_CType_Bool; kUpb_CType_Float; kUpb_CType_Int32; kUpb_CType_UInt32;
    kUpb_CType_Enum; kUpb_CType_Message; kUpb_CType_Double; kUpb_CType_Int64;
    kUpb_CType_UInt64; kUpb_CType_String; kUpb_CType_Bytes ].

(** Modelled from the spec: the enumeration [upb_FieldType] is declared in
    upb/base/descriptor_constants.h as well; 18 members, 1-based ordinals,
    in the order of the spec and of the table comments in
    [upb_Log2FieldTypeSize]. *)
Inductive upb_FieldType : Type :=
| kUpb_FieldType_Double
| kUpb_FieldType_Float
| kUpb_FieldType_Int64
| kUpb_FieldType_UInt64
| kUpb_FieldType_Int32
| kUpb_FieldType_Fixed64
| kUpb_FieldType_Fixed32
| kUpb_FieldType_Bool
| kUpb_FieldType_String
| kUpb_FieldType_Group
| kUpb_FieldType_Message
| kUpb_FieldType_Bytes
| kUpb_FieldType_UInt32
| kUpb_FieldType_Enum
| kUpb_FieldType_SFixed32
| kUpb_FieldType_SFixed64
| kUpb_FieldType_SInt32
| kUpb_FieldType_SInt64.

Definition upb_FieldType_value (t : upb_FieldType) : Z :=
  match t with
  | kUpb_FieldType_Double => 1
  | kUpb_FieldType_Float => 2
  | kUpb_FieldType_Int64 => 3
  | kUpb_FieldType_UInt64 => 4
  | kUpb_FieldType_Int32 => 5
  | kUpb_FieldType_Fixed64 => 6
  | kUpb_FieldType_Fixed32 => 7
  | kUpb_FieldType_Bool => 8
  | kUpb_FieldType_String => 9
  | kUpb_FieldType_Group => 10
  | kUpb_FieldType_Message => 11
  | kUpb_FieldType_Bytes => 12
  | kUpb_FieldType_UInt32 => 13
  | kUpb_FieldType_Enum => 14
  | kUpb_FieldType_SFixed32 => 15
  | kUpb_FieldType_SFixed64 => 16
  | kUpb_FieldType_SInt32 => 17
  | kUpb_FieldType_SInt64 => 18
  end.

Definition upb_FieldType_all : list upb_FieldType :=
  [ kUpb_FieldType_Double; kUpb_FieldType_Float; kUpb_FieldType_Int64;
    kUpb_FieldType_UInt64; kUpb_FieldType_Int32; kUpb_FieldType_Fixed64;
    kUpb_FieldType_Fixed32; kUpb_FieldType_Bool; kUpb_FieldType_String;
    kUpb_FieldType_Group; kUpb_FieldType_Message; kUpb_FieldType_Bytes;
    kUpb_FieldType_UInt32; kUpb_FieldType_Enum; kUpb_FieldType_SFixed32;
    kUpb_FieldType_SFixed64; kUpb_FieldType_SInt32; kUpb_FieldType_SInt64 ].

(** The width of a pointer on the build target. *)
Variant pointer_width : Type := Ptr32 | Ptr64.

Definition pointer_bytes (w : pointer_width) : Z :=
  match w with
  | Ptr32 => 4
  | Ptr64 => 8
  end.

(** Modelled from the spec: the macro [UPB_SIZE(size32, size64)] comes from
    upb/port/def.inc, which is not part of this file.  The spec has the
    pointer width of the build select between the two constants of each
    reference-sized table entry: the first on a 4-byte-pointer target, the
    second on an 8-byte-pointer one. *)
Definition UPB_SIZE (w : pointer_width) (size32 size64 : Z) : Z :=
  match w with
  | Ptr32 => size32
  | Ptr64 => size64
  end.

(** ** Table lookups *)

(** [t[i]] on a C array: reading outside the array is undefined. *)
Definition array_get (t : list Z) (i : Z) : outcome Z :=
  if i <? 0 then Undefined
  else
    match nth_error t (Z.to_nat i) with
    | Some v => Ret v
    | None => Undefined
    end.

(** The [static const size_t size[]] of [upb_Log2CTypeSize]. *)
Definition upb_Log2CTypeSize_size (w : pointer_width) : list Z :=
  [ 0;               (* kUpb_CType_Bool *)
    2;               (* kUpb_CType_Float *)
    2;               (* kUpb_CType_Int32 *)
    2;               (* kUpb_CType_UInt32 *)
    2;               (* kUpb_CType_Enum *)
    UPB_SIZE w 2 3;  (* kUpb_CType_Message *)
    3;               (* kUpb_CType_Double *)
    3;               (* kUpb_CType_Int64 *)
    3;               (* kUpb_CType_UInt64 *)
    UPB_SIZE w 3 4;  (* kUpb_CType_String *)
    UPB_SIZE w 3 4   (* kUpb_CType_Bytes *) ].

(** [return size[c_type - 1];] on the integer value of the enumerator. *)
Definition upb_Log2CTypeSize (w : pointer_width) (c_type : Z) : outcome Z :=
  array_get (upb_Log2CTypeSize_size w) (c_type - 1).

(** The [static const size_t size[]] of [upb_Log2FieldTypeSize]. *)
Definition upb_Log2FieldTypeSize_size (w : pointer_width) : list Z :=
  [ 3;               (* kUpb_FieldType_Double *)
    2;               (* kUpb_FieldType_Float *)
    3;               (* kUpb_FieldType_Int64 *)
    3;               (* kUpb_FieldType_UInt64 *)
    2;               (* kUpb_FieldType_Int32 *)
    3;               (* kUpb_FieldType_Fixed64 *)
    2;               (* kUpb_FieldType_Fixed32 *)
    0;               (* kUpb_FieldType_Bool *)
    UPB_SIZE w 3 4;  (* kUpb_FieldType_String *)
    UPB_SIZE w 2 3;  (* kUpb_FieldType_Group *)
    UPB_SIZE w 2 3;  (* kUpb_FieldType_Message *)
    UPB_SIZE w 3 4;  (* kUpb_FieldType_Bytes *)
    2;               (* kUpb_FieldType_UInt32 *)
    2;               (* kUpb_FieldType_Enum *)
    2;               (* kUpb_FieldType_SFixed32 *)
    3;               (* kUpb_FieldType_SFixed64 *)
    2;               (* kUpb_FieldType_SInt32 *)
    3                (* kUpb_FieldType_SInt64 *) ].

Definition upb_Log2FieldTypeSize (w : pointer_width) (field_type : Z) : outcome Z :=
  array_get (upb_Log2FieldTypeSize_size w) (field_type - 1).

(** The table index an enumerator reads. *)
Definition CType_index (c : upb_CType) : nat :=
  Z.to_nat (upb_CType_value c - 1).

Definition FieldType_index (t : upb_FieldType) : nat :=
  Z.to_nat (upb_FieldType_value t - 1).

(** * Properties *)

(** ** Leading zeros and the binary logarithm *)

Lemma clz_bits_log2 (w : nat) (v : Z) :
  0 < v < 2 ^ Z.of_nat w ->
  clz_bits w v = Z.of_nat w - 1 - Z.log2 v.
Proof.
  induction w as [|k IH]; intros [Hpos Hlt].
  - simpl in Hlt. lia.
  - cbn [clz_bits].
    assert (Hle : Z.log2 v < Z.of_nat (S k))
      by (apply Z.log2_lt_pow2; lia).
    destruct (Z.testbit v (Z.of_nat k)) eqn:Hbit.
    + assert (Z.of_nat k <= Z.log2 v).
      { destruct (Z_le_gt_dec (Z.of_nat k) (Z.log2 v)) as [|Hgt]; [assumption|].
        rewrite Z.bits_above_log2 in Hbit by lia. discriminate. }
      lia.
    + assert (Hne : Z.log2 v <> Z.of_nat k).
      { intros Heq. rewrite <- Heq, Z.bit_log2 in Hbit by lia. discriminate. }
      rewrite IH; [lia|].
      split; [assumption|]. apply Z.log2_lt_pow2; lia.
Qed.

Lemma log2_up_succ_log2_pred (x : Z) :
  1 < x -> Z.log2 (x - 1) + 1 = Z.log2_up x.
Proof.
  intros Hx. unfold Z.log2_up.
  destruct (Z.compare_spec 1 x); try lia.
  rewrite <- Z.sub_1_r. lia.
Qed.

Lemma log2_up_bounds (x : Z) :
  1 < x <= 2 ^ 30 -> 1 <= Z.log2_up x <= 30.
Proof.
  intros [Hlo Hhi]. split.
  - assert (0 < Z.log2_up x) by (apply Z.log2_up_pos; lia). lia.
  - change 30 with (Z.log2_up (2 ^ 30)). apply Z.log2_up_le_mono. lia.
Qed.

(** ** The [int] operations inside their range *)

Lemma checked_in_range (z : Z) :
  Int.min_signed <= z <= Int.max_signed -> Int.checked z = Ret z.
Proof.
  intros [Hlo Hhi]. unfold Int.checked, Int.in_range.
  apply Z.leb_le in Hlo. apply Z.leb_le in Hhi.
  rewrite Hlo, Hhi. reflexivity.
Qed.

Lemma pow2_le_30 (n : Z) : 0 <= n <= 30 -> 1 <= 2 ^ n <= 2 ^ 30.
Proof.
  intros Hn. split.
  - assert (0 < 2 ^ n) by (apply Z.pow_pos_nonneg; lia). lia.
  - apply Z.pow_le_mono_r; lia.
Qed.

Lemma shl_1_small (n : Z) : 0 <= n <= 30 -> Int.shl 1 n = Ret (2 ^ n).
Proof.
  intros Hn. unfold Int.shl, Int.width.
  destruct (Z.ltb_spec n 0); [lia|].
  destruct (Z.leb_spec 32 n); [lia|].
  cbn [orb]. change (1 <? 0) with false. cbv iota.
  rewrite Z.shiftl_1_l. apply checked_in_range.
  pose proof (pow2_le_30 n Hn) as Hp.
  unfold Int.min_signed, Int.max_signed.
  change (2 ^ 30) with 1073741824 in Hp.
  change (2 ^ 31) with 2147483648. lia.
Qed.

Lemma shl_1_31 : Int.shl 1 31 = Undefined.
Proof. reflexivity. Qed.

(** ** The two bodies of upb_Log2Ceiling compute [Z.log2_up] *)

Lemma gnuc_log2_up (fuel : nat) (x : Z) :
  1 < x <= Int.max_signed ->
  upb_Log2Ceiling Gnuc fuel x = Ret (Z.log2_up x).
Proof.
  intros [Hlo Hhi]. unfold Int.max_signed in Hhi.
  change (2 ^ 31) with 2147483648 in Hhi.
  unfold upb_Log2Ceiling.
  destruct (Z.leb_spec x 1); [lia|].
  unfold Int.sub at 1.
  rewrite checked_in_range
    by (unfold Int.min_signed, Int.max_signed;
        change (2 ^ 31) with 2147483648; lia).
  cbn [bind].
  assert (Hu : Int.to_unsigned (x - 1) = x - 1).
  { unfold Int.to_unsigned, Int.modulus. apply Z.mod_small.
    change (2 ^ 32) with 4294967296. lia. }
  rewrite Hu. unfold builtin_clz.
  destruct (Z.eqb_spec (x - 1) 0); [lia|].
  cbn [bind].
  rewrite clz_bits_log2
    by (change (2 ^ Z.of_nat 32) with 4294967296; lia).
  assert (Hl : 0 <= Z.log2 (x - 1) < 31).
  { split; [apply Z.log2_nonneg|].
    apply Z.log2_lt_pow2; [lia|]. change (2 ^ 31) with 2147483648. lia. }
  unfold Int.sub. rewrite checked_in_range.
  - f_equal. rewrite <- log2_up_succ_log2_pred by lia.
    change (Z.of_nat 32) with 32. lia.
  - unfold Int.min_signed, Int.max_signed.
    change (2 ^ 31) with 2147483648. change (Z.of_nat 32) with 32. lia.
Qed.

Lemma loop_log2_up (fuel : nat) (x lg2 : Z) :
  1 < x <= 2 ^ 30 ->
  0 <= lg2 <= Z.log2_up x ->
  (Z.to_nat (Z.log2_up x - lg2) < fuel)%nat ->
  Log2Ceiling_loop fuel x lg2 = Ret (Z.log2_up x).
Proof.
  intros Hx. pose proof (log2_up_bounds x Hx) as Hb.
  pose proof (Z.log2_up_spec x (proj1 Hx)) as [Hbelow Habove].
  revert lg2. induction fuel as [|fuel IH]; intros lg2 Hlg Hfuel; [lia|].
  cbn [Log2Ceiling_loop].
  rewrite shl_1_small by lia. cbn [bind].
  destruct (Z.ltb_spec (2 ^ lg2) x) as [Hlt|Hge].
  - assert (lg2 < Z.log2_up x).
    { destruct (Z_lt_ge_dec lg2 (Z.log2_up x)) as [|Hge]; [assumption|].
      replace lg2 with (Z.log2_up x) in Hlt by lia. lia. }
    unfold Int.add. rewrite checked_in_range
      by (unfold Int.min_signed, Int.max_signed;
          change (2 ^ 31) with 2147483648; lia).
    cbn [bind]. apply IH; lia.
  - f_equal.
    destruct (Z_lt_ge_dec lg2 (Z.log2_up x)) as [Hl|]; [|lia].
    assert (2 ^ lg2 <= 2 ^ Z.pred (Z.log2_up x))
      by (apply Z.pow_le_mono_r; lia).
    lia.
Qed.

Lemma nongnuc_log2_up (fuel : nat) (x : Z) :
  (loop_fuel <= fuel)%nat ->
  1 < x <= 2 ^ 30 ->
  upb_Log2Ceiling NonGnuc fuel x = Ret (Z.log2_up x).
Proof.
  intros Hfuel Hx. unfold upb_Log2Ceiling.
  destruct (Z.leb_spec x 1); [lia|].
  pose proof (log2_up_bounds x Hx).
  apply loop_log2_up; [assumption|lia|].
  unfold loop_fuel in Hfuel. lia.
Qed.

(** On [0, 2^30] both bodies return [Z.log2_up x]. *)
Lemma Log2Ceiling_log2_up (cc : compiler) (fuel : nat) (x : Z) :
  (loop_fuel <= fuel)%nat ->
  x <= 2 ^ 30 ->
  upb_Log2Ceiling cc fuel x = Ret (Z.log2_up x).
Proof.
  intros Hfuel Hx.
  destruct (Z_le_gt_dec x 1) as [Hle|Hgt].
  - unfold upb_Log2Ceiling.
    destruct (Z.leb_spec x 1); [|lia].
    rewrite Z.log2_up_eqn0 by assumption. reflexivity.
  - destruct cc.
    + apply gnuc_log2_up. unfold Int.max_signed.
      change (2 ^ 30) with 1073741824 in Hx.
      change (2 ^ 31) with 2147483648. lia.
    + apply nongnuc_log2_up; [assumption|lia].
Qed.

(** ** upb_Log2Ceiling: the contract *)

(** C1. For every x in [1, 2^30], with either body and enough iterations
    for the loop, upb_Log2Ceiling returns the smallest n with 2^n >= x:
    2^n >= x, no smaller exponent does, and for x > 1 also 2^(n-1) < x. *)
Theorem Log2Ceiling_smallest_exponent (cc : compiler) (fuel : nat) (x : Z) :
  (loop_fuel <= fuel)%nat ->
  1 <= x <= 2 ^ 30 ->
  exists n,
    upb_Log2Ceiling cc fuel x = Ret n /\
    0 <= n /\
    x <= 2 ^ n /\
    (forall m, 0 <= m -> x <= 2 ^ m -> n <= m) /\
    (1 < x -> 2 ^ (n - 1) < x).
Proof.
  intros Hfuel [Hlo Hhi]. exists (Z.log2_up x).
  split; [apply Log2Ceiling_log2_up; assumption|].
  split; [apply Z.log2_up_nonneg|].
  split.
  - destruct (Z.eq_dec x 1) as [->|Hne]; [reflexivity|].
    apply Z.log2_up_spec. lia.
  - split.
    + intros m _ Hm. apply Z.log2_up_le_pow2; [lia|assumption].
    + intros Hx. rewrite Z.sub_1_r. apply Z.log2_up_spec. assumption.
Qed.

Lemma Log2Ceiling_smallest_exponent_witness :
  exists n,
    upb_Log2Ceiling NonGnuc 32 1025 = Ret n /\
    0 <= n /\
    1025 <= 2 ^ n /\
    (forall m, 0 <= m -> 1025 <= 2 ^ m -> n <= m) /\
    (1 < 1025 -> 2 ^ (n - 1) < 1025).
Proof.
  apply (Log2Ceiling_smallest_exponent NonGnuc 32 1025).
  - unfold loop_fuel. lia.
  - lia.
Defined.

(** C4. upb_Log2Ceiling returns 0 for every x <= 1, whichever body is
    compiled and whatever the loop bound: in particular at 0, at 1 and at
    every negative x. *)
Theorem Log2Ceiling_clamp (cc : compiler) (fuel : nat) (x : Z) :
  x <= 1 ->
  upb_Log2Ceiling cc fuel x = Ret 0.
Proof.
  intros Hx. unfold upb_Log2Ceiling.
  destruct (Z.leb_spec x 1); [reflexivity|lia].
Qed.

Lemma Log2Ceiling_clamp_witness :
  upb_Log2Ceiling Gnuc 0 0 = Ret 0 /\
  upb_Log2Ceiling NonGnuc 0 1 = Ret 0 /\
  upb_Log2Ceiling Gnuc 0 (-5) = Ret 0 /\
  upb_Log2Ceiling NonGnuc 0 Int.min_signed = Ret 0.
Proof.
  split; [apply (Log2Ceiling_clamp Gnuc 0 0); lia|].
  split; [apply (Log2Ceiling_clamp NonGnuc 0 1); lia|].
  split; [apply (Log2Ceiling_clamp Gnuc 0 (-5)); lia|].
  apply (Log2Ceiling_clamp NonGnuc 0 Int.min_signed).
  unfold Int.min_signed. lia.
Defined.

(** ** Fast path against fallback *)

(** On [2, 2^30] the two bodies return the same exponent. *)
Lemma Log2Ceiling_bodies_agree (fuel : nat) (x : Z) :
  (loop_fuel <= fuel)%nat ->
  1 < x <= 2 ^ 30 ->
  exists n,
    upb_Log2Ceiling Gnuc fuel x = Ret n /\
    upb_Log2Ceiling NonGnuc fuel x = Ret n.
Proof.
  intros Hfuel Hx. exists (Z.log2_up x).
  split; apply Log2Ceiling_log2_up; solve [assumption | lia].
Qed.

(** Above 2^30 the loop reaches [1 << 31], which overflows [int]: from any
    counter it either runs out of iterations or hits undefined behaviour,
    and never returns. *)
Lemma loop_never_returns (fuel : nat) (x lg2 n : Z) :
  2 ^ 30 < x ->
  0 <= lg2 ->
  Log2Ceiling_loop fuel x lg2 <> Ret n.
Proof.
  intros Hx. revert lg2.
  induction fuel as [|fuel IH]; intros lg2 Hlg; [discriminate|].
  cbn [Log2Ceiling_loop].
  destruct (Z_le_gt_dec lg2 30) as [Hsmall|Hbig].
  - rewrite shl_1_small by lia. cbn [bind].
    pose proof (pow2_le_30 lg2 (conj Hlg Hsmall)).
    destruct (Z.ltb_spec (2 ^ lg2) x); [|lia].
    unfold Int.add. rewrite checked_in_range
      by (unfold Int.min_signed, Int.max_signed;
          change (2 ^ 31) with 2147483648; lia).
    cbn [bind]. apply IH. lia.
  - assert (Hu : Int.shl 1 lg2 = Undefined).
    { unfold Int.shl, Int.width.
      destruct (Z.ltb_spec lg2 0); [lia|].
      destruct (Z.leb_spec 32 lg2); [reflexivity|].
      replace lg2 with 31 by lia. reflexivity. }
    rewrite Hu. discriminate.
Qed.

Lemma loop_overflows (fuel : nat) (x lg2 : Z) :
  2 ^ 30 < x ->
  0 <= lg2 <= 31 ->
  (Z.to_nat (31 - lg2) < fuel)%nat ->
  Log2Ceiling_loop fuel x lg2 = Undefined.
Proof.
  intros Hx. revert lg2.
  induction fuel as [|fuel IH]; intros lg2 Hlg Hfuel; [lia|].
  cbn [Log2Ceiling_loop].
  destruct (Z.eq_dec lg2 31) as [->|Hne]; [reflexivity|].
  rewrite shl_1_small by lia. cbn [bind].
  assert (Hp : 1 <= 2 ^ lg2 <= 2 ^ 30) by (apply pow2_le_30; lia).
  destruct (Z.ltb_spec (2 ^ lg2) x); [|lia].
  unfold Int.add. rewrite checked_in_range
    by (unfold Int.min_signed, Int.max_signed;
        change (2 ^ 31) with 2147483648; lia).
  cbn [bind]. apply IH; lia.
Qed.

(** The same loop with wrapping arithmetic: every [1 << lg2] is at most
    2^30 or is the most negative [int], so the test never fails. *)
Lemma shl_wrap_1_le (lg2 : Z) : Int.shl_wrap 1 lg2 <= 2 ^ 30.
Proof.
  unfold Int.shl_wrap, Int.width.
  assert (Hk : 0 <= lg2 mod 32 < 32) by (apply Z.mod_pos_bound; lia).
  rewrite Z.shiftl_1_l.
  destruct (Z.eq_dec (lg2 mod 32) 31) as [->|Hne].
  - vm_compute. discriminate.
  - pose proof (pow2_le_30 (lg2 mod 32) ltac:(lia)) as Hp.
    unfold Int.wrap, Int.modulus.
    change (2 ^ 30) with 1073741824 in *.
    change (2 ^ 31) with 2147483648. change (2 ^ 32) with 4294967296.
    rewrite Z.mod_small by lia. lia.
Qed.

Lemma loop_wrap_never_returns (fuel : nat) (x lg2 n : Z) :
  2 ^ 30 < x ->
  Log2Ceiling_loop_wrap fuel x lg2 <> Ret n.
Proof.
  intros Hx. revert lg2.
  induction fuel as [|fuel IH]; intros lg2; [discriminate|].
  cbn [Log2Ceiling_loop_wrap].
  pose proof (shl_wrap_1_le lg2).
  destruct (Z.ltb_spec (Int.shl_wrap 1 lg2) x); [apply IH|lia].
Qed.

(** The spec's doubling search returns [Z.log2_up x] on every x > 1, and
    the leading-zero body matches it on the whole positive [int] range. *)
Lemma doubling_search_log2_up (fuel : nat) (x n : Z) :
  1 < x ->
  0 <= n <= Z.log2_up x ->
  (Z.to_nat (Z.log2_up x - n) < fuel)%nat ->
  doubling_search fuel x n = Some (Z.log2_up x).
Proof.
  intros Hx. pose proof (Z.log2_up_spec x Hx) as [Hbelow Habove].
  revert n. induction fuel as [|fuel IH]; intros n Hn Hfuel; [lia|].
  cbn [doubling_search].
  destruct (Z.leb_spec x (2 ^ n)) as [Hle|Hgt].
  - f_equal.
    destruct (Z_lt_ge_dec n (Z.log2_up x)) as [Hl|]; [|lia].
    assert (2 ^ n <= 2 ^ Z.pred (Z.log2_up x))
      by (apply Z.pow_le_mono_r; lia).
    lia.
  - assert (n < Z.log2_up x).
    { destruct (Z_lt_ge_dec n (Z.log2_up x)) as [|Hge]; [assumption|].
      replace n with (Z.log2_up x) in Hgt by lia. lia. }
    apply IH; lia.
Qed.

Lemma gnuc_refines_iterative_spec (fuel : nat) (x : Z) :
  (loop_fuel <= fuel)%nat ->
  Int.min_signed <= x <= Int.max_signed ->
  exists n,
    Log2Ceiling_iterative_spec fuel x = Some n /\
    upb_Log2Ceiling Gnuc fuel x = Ret n.
Proof.
  intros Hfuel [Hlo Hhi]. exists (Z.log2_up x).
  destruct (Z_le_gt_dec x 1) as [Hle|Hgt].
  - unfold Log2Ceiling_iterative_spec, upb_Log2Ceiling.
    destruct (Z.leb_spec x 1); [|lia].
    rewrite Z.log2_up_eqn0 by assumption. split; reflexivity.
  - split; [|apply gnuc_log2_up; lia].
    unfold Log2Ceiling_iterative_spec.
    destruct (Z.leb_spec x 1); [lia|].
    assert (Z.log2_up x <= 31).
    { change 31 with (Z.log2_up (2 ^ 31)). apply Z.log2_up_le_mono.
      unfold Int.max_signed in Hhi. lia. }
    pose proof (Z.log2_up_nonneg x).
    apply doubling_search_log2_up; [lia|lia|].
    unfold loop_fuel in Hfuel. lia.
Qed.

(** C2. At x = 2^30 + 1, an [int] greater than 1, the two bodies differ:
    the leading-zero body returns 31, which is also what the spec's
    doubling search gives, while the loop never returns a value; given 32
    or more iterations it ends in the undefined shift [1 << 31], and with
    wrapping arithmetic it does not leave the loop. *)
Theorem Log2Ceiling_bodies_differ_above_2p30 (fuel : nat) :
  Int.in_range (2 ^ 30 + 1) = true /\
  Log2Ceiling_iterative_spec (loop_fuel + fuel) (2 ^ 30 + 1) = Some 31 /\
  upb_Log2Ceiling Gnuc fuel (2 ^ 30 + 1) = Ret 31 /\
  (forall n, upb_Log2Ceiling NonGnuc fuel (2 ^ 30 + 1) <> Ret n) /\
  upb_Log2Ceiling NonGnuc (loop_fuel + fuel) (2 ^ 30 + 1) = Undefined /\
  (forall lg2 n, Log2Ceiling_loop_wrap fuel (2 ^ 30 + 1) lg2 <> Ret n).
Proof.
  split; [reflexivity|].
  split.
  { change (Log2Ceiling_iterative_spec (loop_fuel + fuel) (2 ^ 30 + 1))
      with (doubling_search (loop_fuel + fuel) (2 ^ 30 + 1) 0).
    change 31 with (Z.log2_up (2 ^ 30 + 1)).
    apply doubling_search_log2_up; [lia| |].
    - change (Z.log2_up (2 ^ 30 + 1)) with 31. lia.
    - change (Z.log2_up (2 ^ 30 + 1)) with 31. unfold loop_fuel. simpl. lia. }
  split; [reflexivity|].
  split; [|split].
  - intros n. change (upb_Log2Ceiling NonGnuc fuel (2 ^ 30 + 1))
      with (Log2Ceiling_loop fuel (2 ^ 30 + 1) 0).
    apply loop_never_returns; lia.
  - change (upb_Log2Ceiling NonGnuc (loop_fuel + fuel) (2 ^ 30 + 1))
      with (Log2Ceiling_loop (loop_fuel + fuel) (2 ^ 30 + 1) 0).
    apply loop_overflows; [lia|lia|]. unfold loop_fuel. simpl. lia.
  - intros lg2 n. apply loop_wrap_never_returns. lia.
Qed.

(** ** upb_Log2CeilingSize *)

Lemma log2_up_range (x : Z) : x <= 2 ^ 30 -> 0 <= Z.log2_up x <= 30.
Proof.
  intros Hx. split; [apply Z.log2_up_nonneg|].
  destruct (Z_le_gt_dec x 1) as [Hle|Hgt].
  - rewrite Z.log2_up_eqn0 by assumption. lia.
  - apply log2_up_bounds. lia.
Qed.

Lemma Log2CeilingSize_pow2_log2_up (cc : compiler) (fuel : nat) (x : Z) :
  (loop_fuel <= fuel)%nat ->
  x <= 2 ^ 30 ->
  upb_Log2CeilingSize cc fuel x = Ret (2 ^ Z.log2_up x).
Proof.
  intros Hfuel Hx. unfold upb_Log2CeilingSize.
  rewrite Log2Ceiling_log2_up by assumption. cbn [bind].
  apply shl_1_small, log2_up_range, Hx.
Qed.

(** C3. For every x in [0, 2^30], upb_Log2CeilingSize x is
    2^(upb_Log2Ceiling x); it is a power of two that is at least x, no
    power of two below it is, and it is 1 when x <= 1. *)
Theorem Log2CeilingSize_smallest_pow2 (cc : compiler) (fuel : nat) (x : Z) :
  (loop_fuel <= fuel)%nat ->
  0 <= x <= 2 ^ 30 ->
  exists n,
    upb_Log2Ceiling cc fuel x = Ret n /\
    0 <= n /\
    upb_Log2CeilingSize cc fuel x = Ret (2 ^ n) /\
    x <= 2 ^ n /\
    (forall m, 0 <= m -> x <= 2 ^ m -> 2 ^ n <= 2 ^ m) /\
    (x <= 1 -> 2 ^ n = 1).
Proof.
  intros Hfuel [Hlo Hhi]. exists (Z.log2_up x).
  split; [apply Log2Ceiling_log2_up; assumption|].
  split; [apply Z.log2_up_nonneg|].
  split; [apply Log2CeilingSize_pow2_log2_up; assumption|].
  destruct (Z_le_gt_dec x 1) as [Hle|Hgt].
  - rewrite Z.log2_up_eqn0 by assumption. cbn [Z.pow].
    split; [lia|]. split; [|reflexivity].
    intros m Hm _. assert (0 < 2 ^ m) by (apply Z.pow_pos_nonneg; lia). lia.
  - repeat split; try lia.
    + apply Z.log2_up_spec. lia.
    + intros m Hm Hxm. apply Z.pow_le_mono_r; [lia|].
      apply Z.log2_up_le_pow2; [lia|assumption].
Qed.

Lemma Log2CeilingSize_smallest_pow2_witness :
  exists n,
    upb_Log2Ceiling Gnuc 32 5 = Ret n /\
    0 <= n /\
    upb_Log2CeilingSize Gnuc 32 5 = Ret (2 ^ n) /\
    5 <= 2 ^ n /\
    (forall m, 0 <= m -> 5 <= 2 ^ m -> 2 ^ n <= 2 ^ m) /\
    (5 <= 1 -> 2 ^ n = 1).
Proof.
  apply (Log2CeilingSize_smallest_pow2 Gnuc 32 5).
  - unfold loop_fuel. lia.
  - lia.
Defined.

(** C9. upb_Log2Ceiling is monotone on [0, 2^30]: for 0 <= x <= y <= 2^30
    both calls return, and the result at x is at most the result at y. *)
Theorem Log2Ceiling_monotone (cc : compiler) (fuel : nat) (x y : Z) :
  (loop_fuel <= fuel)%nat ->
  0 <= x -> x <= y -> y <= 2 ^ 30 ->
  exists a b,
    upb_Log2Ceiling cc fuel x = Ret a /\
    upb_Log2Ceiling cc fuel y = Ret b /\
    a <= b.
Proof.
  intros Hfuel Hx Hxy Hy.
  exists (Z.log2_up x), (Z.log2_up y).
  split; [apply Log2Ceiling_log2_up; [assumption|lia]|].
  split; [apply Log2Ceiling_log2_up; assumption|].
  apply Z.log2_up_le_mono. assumption.
Qed.

Lemma Log2Ceiling_monotone_witness :
  exists a b,
    upb_Log2Ceiling NonGnuc 40 1024 = Ret a /\
    upb_Log2Ceiling NonGnuc 40 1025 = Ret b /\
    a <= b.
Proof.
  apply (Log2Ceiling_monotone NonGnuc 40 1024 1025).
  - unfold loop_fuel. lia.
  - lia.
  - lia.
  - lia.
Defined.

(** C10. upb_Log2CeilingSize is idempotent on [0, 2^30]: the size it
    returns for x is returned unchanged when given back to it; and
    upb_Log2Ceiling (2^n) = n for every n in [0, 30]. *)
Theorem Log2CeilingSize_idempotent (cc : compiler) (fuel : nat) (x n : Z) :
  (loop_fuel <= fuel)%nat ->
  0 <= x <= 2 ^ 30 ->
  0 <= n <= 30 ->
  (exists s,
      upb_Log2CeilingSize cc fuel x = Ret s /\
      upb_Log2CeilingSize cc fuel s = Ret s) /\
  upb_Log2Ceiling cc fuel (2 ^ n) = Ret n.
Proof.
  intros Hfuel [Hlo Hhi] Hn. split.
  - exists (2 ^ Z.log2_up x).
    pose proof (log2_up_range x Hhi) as Hr.
    split; [apply Log2CeilingSize_pow2_log2_up; assumption|].
    rewrite Log2CeilingSize_pow2_log2_up.
    + rewrite Z.log2_up_pow2 by lia. reflexivity.
    + assumption.
    + apply pow2_le_30. assumption.
  - rewrite Log2Ceiling_log2_up.
    + rewrite Z.log2_up_pow2 by lia. reflexivity.
    + assumption.
    + apply pow2_le_30. assumption.
Qed.

Lemma Log2CeilingSize_idempotent_witness :
  (exists s,
      upb_Log2CeilingSize NonGnuc 32 1000 = Ret s /\
      upb_Log2CeilingSize NonGnuc 32 s = Ret s) /\
  upb_Log2Ceiling NonGnuc 32 (2 ^ 30) = Ret 30.
Proof.
  apply (Log2CeilingSize_idempotent NonGnuc 32 1000 30).
  - unfold loop_fuel. lia.
  - lia.
  - lia.
Defined.

(** ** The size tables *)

Lemma array_get_nth (t : list Z) (i : nat) (v : Z) :
  nth_error t i = Some v ->
  array_get t (Z.of_nat i) = Ret v.
Proof.
  intros Hnth. unfold array_get.
  destruct (Z.ltb_spec (Z.of_nat i) 0); [lia|].
  rewrite Nat2Z.id, Hnth. reflexivity.
Qed.

Lemma CType_value_index (c : upb_CType) :
  upb_CType_value c - 1 = Z.of_nat (CType_index c).
Proof. destruct c; reflexivity. Qed.

Lemma FieldType_value_index (t : upb_FieldType) :
  upb_FieldType_value t - 1 = Z.of_nat (FieldType_index t).
Proof. destruct t; reflexivity. Qed.

Lemma CType_index_enumerates (w : pointer_width) :
  map CType_index upb_CType_all = seq 0 (length (upb_Log2CTypeSize_size w)).
Proof. reflexivity. Qed.

Lemma FieldType_index_enumerates (w : pointer_width) :
  map FieldType_index upb_FieldType_all =
  seq 0 (length (upb_Log2FieldTypeSize_size w)).
Proof. reflexivity. Qed.

Lemma CType_all_complete (c : upb_CType) : In c upb_CType_all.
Proof. destruct c; simpl; tauto. Qed.

Lemma FieldType_all_complete (t : upb_FieldType) : In t upb_FieldType_all.
Proof. destruct t; simpl; tauto. Qed.

Lemma CType_index_in_table (w : pointer_width) (c : upb_CType) :
  (CType_index c < length (upb_Log2CTypeSize_size w))%nat.
Proof.
  assert (Hin : In (CType_index c)
                   (seq 0 (length (upb_Log2CTypeSize_size w)))).
  { rewrite <- CType_index_enumerates. apply in_map, CType_all_complete. }
  apply in_seq in Hin. lia.
Qed.

Lemma FieldType_index_in_table (w : pointer_width) (t : upb_FieldType) :
  (FieldType_index t < length (upb_Log2FieldTypeSize_size w))%nat.
Proof.
  assert (Hin : In (FieldType_index t)
                   (seq 0 (length (upb_Log2FieldTypeSize_size w)))).
  { rewrite <- FieldType_index_enumerates.
    apply in_map, FieldType_all_complete. }
  apply in_seq in Hin. lia.
Qed.

Lemma Log2CTypeSize_total (w : pointer_width) (c : upb_CType) :
  exists e,
    nth_error (upb_Log2CTypeSize_size w) (CType_index c) = Some e /\
    upb_Log2CTypeSize w (upb_CType_value c) = Ret e.
Proof.
  pose proof (CType_index_in_table w c) as Hlt.
  apply nth_error_Some in Hlt.
  destruct (nth_error (upb_Log2CTypeSize_size w) (CType_index c))
    as [e|] eqn:Hnth; [|congruence].
  exists e. split; [reflexivity|].
  unfold upb_Log2CTypeSize. rewrite CType_value_index.
  apply array_get_nth, Hnth.
Qed.

Lemma Log2FieldTypeSize_total (w : pointer_width) (t : upb_FieldType) :
  exists e,
    nth_error (upb_Log2FieldTypeSize_size w) (FieldType_index t) = Some e /\
    upb_Log2FieldTypeSize w (upb_FieldType_value t) = Ret e.
Proof.
  pose proof (FieldType_index_in_table w t) as Hlt.
  apply nth_error_Some in Hlt.
  destruct (nth_error (upb_Log2FieldTypeSize_size w) (FieldType_index t))
    as [e|] eqn:Hnth; [|congruence].
  exists e. split; [reflexivity|].
  unfold upb_Log2FieldTypeSize. rewrite FieldType_value_index.
  apply array_get_nth, Hnth.
Qed.

(** C5. With 4-byte pointers upb_Log2CTypeSize gives 2 for Message and 3
    for String; with 8-byte pointers it gives 3 and 4. *)
Theorem Log2CTypeSize_pointer_sized :
  (pointer_bytes Ptr32 = 4 /\
   upb_Log2CTypeSize Ptr32 (upb_CType_value kUpb_CType_Message) = Ret 2 /\
   upb_Log2CTypeSize Ptr32 (upb_CType_value kUpb_CType_String) = Ret 3) /\
  (pointer_bytes Ptr64 = 8 /\
   upb_Log2CTypeSize Ptr64 (upb_CType_value kUpb_CType_Message) = Ret 3 /\
   upb_Log2CTypeSize Ptr64 (upb_CType_value kUpb_CType_String) = Ret 4).
Proof. repeat split. Qed.

(** C6. Whatever the pointer width, upb_Log2FieldTypeSize gives 3 for
    Double, 2 for Float, 0 for Bool, 2 for Fixed32 and 3 for Fixed64; and
    for every enumerator it returns the table entry at index ordinal - 1,
    which exists. *)
Theorem Log2FieldTypeSize_fixed (w : pointer_width) :
  upb_Log2FieldTypeSize w (upb_FieldType_value kUpb_FieldType_Double) = Ret 3 /\
  upb_Log2FieldTypeSize w (upb_FieldType_value kUpb_FieldType_Float) = Ret 2 /\
  upb_Log2FieldTypeSize w (upb_FieldType_value kUpb_FieldType_Bool) = Ret 0 /\
  upb_Log2FieldTypeSize w (upb_FieldType_value kUpb_FieldType_Fixed32) = Ret 2 /\
  upb_Log2FieldTypeSize w (upb_FieldType_value kUpb_FieldType_Fixed64) = Ret 3 /\
  (forall t : upb_FieldType,
      exists e,
        nth_error (upb_Log2FieldTypeSize_size w)
                  (Z.to_nat (upb_FieldType_value t - 1)) = Some e /\
        upb_Log2FieldTypeSize w (upb_FieldType_value t) = Ret e).
Proof.
  repeat (split; [reflexivity|]).
  intros t. apply Log2FieldTypeSize_total.
Qed.

(** C7. Whatever the pointer width, upb_Log2CTypeSize gives 0 for Bool, 3
    for Double and 2 for Float; and for every enumerator it returns the
    table entry at index ordinal - 1, which exists. *)
Theorem Log2CTypeSize_fixed (w : pointer_width) :
  upb_Log2CTypeSize w (upb_CType_value kUpb_CType_Bool) = Ret 0 /\
  upb_Log2CTypeSize w (upb_CType_value kUpb_CType_Double) = Ret 3 /\
  upb_Log2CTypeSize w (upb_CType_value kUpb_CType_Float) = Ret 2 /\
  (forall c : upb_CType,
      exists e,
        nth_error (upb_Log2CTypeSize_size w)
                  (Z.to_nat (upb_CType_value c - 1)) = Some e /\
        upb_Log2CTypeSize w (upb_CType_value c) = Ret e).
Proof.
  repeat (split; [reflexivity|]).
  intros c. apply Log2CTypeSize_total.
Qed.

(** C8. The CType table has 11 entries and the FieldType table 18, as
    many as their enumerations have members; listing the enumerators in
    declaration order, the indices they read ([ordinal - 1]) are exactly
    0, 1, ..., length - 1 in order, so every enumerator has one entry, no
    entry is skipped and none is shared. *)
Theorem size_tables_match_enumerations (w : pointer_width) :
  (length (upb_Log2CTypeSize_size w) = 11%nat /\
   length upb_CType_all = 11%nat /\
   NoDup upb_CType_all /\
   (forall c : upb_CType, In c upb_CType_all) /\
   map CType_index upb_CType_all = seq 0 (length (upb_Log2CTypeSize_size w)) /\
   (forall c : upb_CType, 1 <= upb_CType_value c <= 11)) /\
  (length (upb_Log2FieldTypeSize_size w) = 18%nat /\
   length upb_FieldType_all = 18%nat /\
   NoDup upb_FieldType_all /\
   (forall t : upb_FieldType, In t upb_FieldType_all) /\
   map FieldType_index upb_FieldType_all =
     seq 0 (length (upb_Log2FieldTypeSize_size w)) /\
   (forall t : upb_FieldType, 1 <= upb_FieldType_value t <= 18)).
Proof.
  split.
  - split; [reflexivity|]. split; [reflexivity|].
    split.
    { apply (NoDup_map_inv CType_index).
      rewrite (CType_index_enumerates w). apply seq_NoDup. }
    split; [exact CType_all_complete|].
    split; [reflexivity|].
    intros c. destruct c; simpl; lia.
  - split; [reflexivity|]. split; [reflexivity|].
    split.
    { apply (NoDup_map_inv FieldType_index).
      rewrite (FieldType_index_enumerates w). apply seq_NoDup. }
    split; [exact FieldType_all_complete|].
    split; [reflexivity|].
    intros t. destruct t; simpl; lia.
Qed.

(** * Further properties of the four functions *)

(** ** Facts on [Z.log2_up] used below *)

Lemma log2_up_least (x : Z) :
  x <= 2 ^ Z.log2_up x /\
  (forall m, 0 <= m -> x <= 2 ^ m -> Z.log2_up x <= m).
Proof.
  destruct (Z_le_gt_dec x 1) as [Hle|Hgt].
  - rewrite Z.log2_up_eqn0 by assumption. cbn [Z.pow].
    split; [lia|intros; assumption].
  - split; [apply Z.log2_up_spec; lia|].
    intros m _ Hm. apply Z.log2_up_le_pow2; [lia|assumption].
Qed.

Lemma log2_up_le_iff (x n : Z) :
  0 <= n -> (Z.log2_up x <= n <-> x <= 2 ^ n).
Proof.
  intros Hn. destruct (log2_up_least x) as [Hup Hleast]. split.
  - intros Hle.
    assert (2 ^ Z.log2_up x <= 2 ^ n) by (apply Z.pow_le_mono_r; lia).
    lia.
  - apply Hleast, Hn.
Qed.

Lemma log2_up_above_2p30 (x : Z) :
  2 ^ 30 < x <= Int.max_signed -> Z.log2_up x = 31.
Proof.
  intros [Hlo Hhi]. unfold Int.max_signed in Hhi.
  assert (Z.log2_up x <= 31) by (apply log2_up_le_iff; lia).
  assert (~ Z.log2_up x <= 30).
  { intros Hle. apply log2_up_le_iff in Hle; lia. }
  lia.
Qed.

(** ** upb_Log2Ceiling beyond the claims' range *)

(** X1. The leading-zero body is defined on every [int]: for each x of the
    32-bit signed range it returns an n in [0, 31] with 2^n >= x and no
    smaller non-negative exponent has that property. *)
Theorem Log2Ceiling_gnuc_whole_int_range (fuel : nat) (x : Z) :
  Int.min_signed <= x <= Int.max_signed ->
  exists n,
    upb_Log2Ceiling Gnuc fuel x = Ret n /\
    0 <= n <= 31 /\
    x <= 2 ^ n /\
    (forall m, 0 <= m -> x <= 2 ^ m -> n <= m).
Proof.
  intros [Hlo Hhi]. exists (Z.log2_up x).
  destruct (log2_up_least x) as [Hup Hleast].
  split; [|split; [|split; assumption]].
  - destruct (Z_le_gt_dec x 1) as [Hle|Hgt].
    + unfold upb_Log2Ceiling. destruct (Z.leb_spec x 1); [|lia].
      rewrite Z.log2_up_eqn0 by assumption. reflexivity.
    + apply gnuc_log2_up. lia.
  - split; [apply Z.log2_up_nonneg|].
    apply log2_up_le_iff; [lia|]. unfold Int.max_signed in Hhi. lia.
Qed.

Lemma Log2Ceiling_gnuc_whole_int_range_witness :
  exists n,
    upb_Log2Ceiling Gnuc 0 Int.max_signed = Ret n /\
    0 <= n <= 31 /\
    Int.max_signed <= 2 ^ n /\
    (forall m, 0 <= m -> Int.max_signed <= 2 ^ m -> n <= m).
Proof.
  apply (Log2Ceiling_gnuc_whole_int_range 0 Int.max_signed).
  unfold Int.min_signed, Int.max_signed. lia.
Defined.

(** X2. The fallback loop returns a value exactly for x <= 2^30: given 32
    or more iterations it returns on those inputs, and on every larger x
    it stops in the undefined shift [1 << 31]. *)
Theorem Log2Ceiling_loop_defined_iff (fuel : nat) (x : Z) :
  (loop_fuel <= fuel)%nat ->
  ((exists n, upb_Log2Ceiling NonGnuc fuel x = Ret n) <-> x <= 2 ^ 30) /\
  (2 ^ 30 < x -> upb_Log2Ceiling NonGnuc fuel x = Undefined).
Proof.
  intros Hfuel.
  assert (Hbig : 2 ^ 30 < x -> upb_Log2Ceiling NonGnuc fuel x = Undefined).
  { intros Hx. unfold upb_Log2Ceiling.
    destruct (Z.leb_spec x 1); [lia|].
    apply loop_overflows; [assumption|lia|].
    unfold loop_fuel in Hfuel. simpl. lia. }
  split; [|exact Hbig]. split.
  - intros [n Hn].
    destruct (Z_le_gt_dec x (2 ^ 30)) as [|Hgt]; [assumption|].
    rewrite Hbig in Hn by lia. discriminate.
  - intros Hx. exists (Z.log2_up x).
    apply Log2Ceiling_log2_up; assumption.
Qed.

Lemma Log2Ceiling_loop_defined_iff_witness :
  ((exists n, upb_Log2Ceiling NonGnuc 32 (2 ^ 30) = Ret n) <->
   2 ^ 30 <= 2 ^ 30) /\
  (2 ^ 30 < 2 ^ 30 -> upb_Log2Ceiling NonGnuc 32 (2 ^ 30) = Undefined).
Proof.
  apply (Log2Ceiling_loop_defined_iff 32 (2 ^ 30)).
  unfold loop_fuel. lia.
Defined.

Lemma loop_out_of_fuel (fuel : nat) (x lg2 : Z) :
  1 < x <= 2 ^ 30 ->
  0 <= lg2 ->
  (fuel <= Z.to_nat (Z.log2_up x - lg2))%nat ->
  Log2Ceiling_loop fuel x lg2 = OutOfFuel.
Proof.
  intros Hx. pose proof (log2_up_bounds x Hx) as Hb.
  pose proof (Z.log2_up_spec x (proj1 Hx)) as [Hbelow _].
  revert lg2. induction fuel as [|fuel IH]; intros lg2 Hlg Hfuel;
    [reflexivity|].
  cbn [Log2Ceiling_loop].
  assert (Hlt : lg2 < Z.log2_up x) by lia.
  rewrite shl_1_small by lia. cbn [bind].
  assert (2 ^ lg2 <= 2 ^ Z.pred (Z.log2_up x))
    by (apply Z.pow_le_mono_r; lia).
  destruct (Z.ltb_spec (2 ^ lg2) x); [|lia].
  unfold Int.add. rewrite checked_in_range
    by (unfold Int.min_signed, Int.max_signed;
        change (2 ^ 31) with 2147483648; lia).
  cbn [bind]. apply IH; lia.
Qed.

(** X3. On 1 < x <= 2^30 the fallback loop tests its condition exactly
    n + 1 times, n <= 30 being its result: any budget above n yields n, and
    a budget of n or fewer iterations is exhausted before it returns. *)
Theorem Log2Ceiling_loop_iterations (x : Z) :
  1 < x <= 2 ^ 30 ->
  exists n,
    1 <= n <= 30 /\
    (forall fuel, (Z.to_nat n < fuel)%nat ->
                  upb_Log2Ceiling NonGnuc fuel x = Ret n) /\
    (forall fuel, (fuel <= Z.to_nat n)%nat ->
                  upb_Log2Ceiling NonGnuc fuel x = OutOfFuel).
Proof.
  intros Hx. exists (Z.log2_up x).
  split; [apply log2_up_bounds, Hx|].
  pose proof (log2_up_bounds x Hx).
  split; intros fuel Hfuel; unfold upb_Log2Ceiling;
    (destruct (Z.leb_spec x 1); [lia|]).
  - apply loop_log2_up; [assumption|lia|].
    rewrite Z.sub_0_r. assumption.
  - apply loop_out_of_fuel; [assumption|lia|].
    rewrite Z.sub_0_r. assumption.
Qed.

Lemma Log2Ceiling_loop_iterations_witness :
  exists n,
    1 <= n <= 30 /\
    (forall fuel, (Z.to_nat n < fuel)%nat ->
                  upb_Log2Ceiling NonGnuc fuel 1025 = Ret n) /\
    (forall fuel, (fuel <= Z.to_nat n)%nat ->
                  upb_Log2Ceiling NonGnuc fuel 1025 = OutOfFuel).
Proof.
  apply (Log2Ceiling_loop_iterations 1025). lia.
Defined.

(** X4. On x <= 2^30 the two bodies return the same exponent, and it is
    the one the doubling search over unbounded integers finds. *)
Theorem Log2Ceiling_bodies_agree_up_to_2p30 (fuel : nat) (x : Z) :
  (loop_fuel <= fuel)%nat ->
  x <= 2 ^ 30 ->
  exists n,
    upb_Log2Ceiling Gnuc fuel x = Ret n /\
    upb_Log2Ceiling NonGnuc fuel x = Ret n /\
    Log2Ceiling_iterative_spec fuel x = Some n.
Proof.
  intros Hfuel Hx. exists (Z.log2_up x).
  split; [apply Log2Ceiling_log2_up; assumption|].
  split; [apply Log2Ceiling_log2_up; assumption|].
  unfold Log2Ceiling_iterative_spec.
  destruct (Z.leb_spec x 1) as [Hle|Hgt].
  - rewrite Z.log2_up_eqn0 by assumption. reflexivity.
  - pose proof (log2_up_range x Hx).
    apply doubling_search_log2_up; [lia|lia|].
    unfold loop_fuel in Hfuel. lia.
Qed.

Lemma Log2Ceiling_bodies_agree_up_to_2p30_witness :
  exists n,
    upb_Log2Ceiling Gnuc 32 1000000 = Ret n /\
    upb_Log2Ceiling NonGnuc 32 1000000 = Ret n /\
    Log2Ceiling_iterative_spec 32 1000000 = Some n.
Proof.
  apply (Log2Ceiling_bodies_agree_up_to_2p30 32 1000000).
  - unfold loop_fuel. lia.
  - lia.
Defined.

(** X5. For x <= 2^30 and every n >= 0, the result of upb_Log2Ceiling is
    at most n exactly when x fits in 2^n. *)
Theorem Log2Ceiling_le_iff (cc : compiler) (fuel : nat) (x n : Z) :
  (loop_fuel <= fuel)%nat ->
  x <= 2 ^ 30 ->
  0 <= n ->
  exists r,
    upb_Log2Ceiling cc fuel x = Ret r /\
    (r <= n <-> x <= 2 ^ n).
Proof.
  intros Hfuel Hx Hn. exists (Z.log2_up x).
  split; [apply Log2Ceiling_log2_up; assumption|].
  apply log2_up_le_iff, Hn.
Qed.

Lemma Log2Ceiling_le_iff_witness :
  exists r,
    upb_Log2Ceiling NonGnuc 32 4097 = Ret r /\
    (r <= 12 <-> 4097 <= 2 ^ 12).
Proof.
  apply (Log2Ceiling_le_iff NonGnuc 32 4097 12).
  - unfold loop_fuel. lia.
  - lia.
  - lia.
Defined.

(** X6. Scaling by a power of two adds to the exponent: for x >= 1 and
    k >= 0 with x * 2^k <= 2^30,
    upb_Log2Ceiling (x * 2^k) = upb_Log2Ceiling x + k. *)
Theorem Log2Ceiling_mul_pow2 (cc : compiler) (fuel : nat) (x k : Z) :
  (loop_fuel <= fuel)%nat ->
  1 <= x ->
  0 <= k ->
  x * 2 ^ k <= 2 ^ 30 ->
  exists r,
    upb_Log2Ceiling cc fuel x = Ret r /\
    upb_Log2Ceiling cc fuel (x * 2 ^ k) = Ret (r + k).
Proof.
  intros Hfuel Hx Hk Hxk. exists (Z.log2_up x).
  assert (0 < 2 ^ k) by (apply Z.pow_pos_nonneg; lia).
  assert (x <= x * 2 ^ k) by nia.
  split; [apply Log2Ceiling_log2_up; [assumption|lia]|].
  rewrite Log2Ceiling_log2_up by assumption.
  rewrite Z.log2_up_mul_pow2 by lia. f_equal. lia.
Qed.

Lemma Log2Ceiling_mul_pow2_witness :
  exists r,
    upb_Log2Ceiling Gnuc 32 5 = Ret r /\
    upb_Log2Ceiling Gnuc 32 (5 * 2 ^ 10) = Ret (r + 10).
Proof.
  apply (Log2Ceiling_mul_pow2 Gnuc 32 5 10).
  - unfold loop_fuel. lia.
  - lia.
  - lia.
  - vm_compute. discriminate.
Defined.

(** ** upb_Log2CeilingSize beyond the claims *)

(** X7. upb_Log2CeilingSize returns a value exactly for x <= 2^30: for a
    larger [int] the exponent is 31 and [1 << 31] overflows (or, with the
    fallback loop, the exponent is never produced), so the call is
    undefined. *)
Theorem Log2CeilingSize_defined_iff (cc : compiler) (fuel : nat) (x : Z) :
  (loop_fuel <= fuel)%nat ->
  x <= Int.max_signed ->
  ((exists s, upb_Log2CeilingSize cc fuel x = Ret s) <-> x <= 2 ^ 30) /\
  (2 ^ 30 < x -> upb_Log2CeilingSize cc fuel x = Undefined).
Proof.
  intros Hfuel Hmax.
  assert (Hbig : 2 ^ 30 < x -> upb_Log2CeilingSize cc fuel x = Undefined).
  { intros Hx. unfold upb_Log2CeilingSize. destruct cc.
    - rewrite gnuc_log2_up by lia.
      rewrite log2_up_above_2p30 by lia. reflexivity.
    - unfold upb_Log2Ceiling. destruct (Z.leb_spec x 1); [lia|].
      rewrite loop_overflows; [reflexivity|assumption|lia|].
      unfold loop_fuel in Hfuel. simpl. lia. }
  split; [|exact Hbig]. split.
  - intros [s Hs].
    destruct (Z_le_gt_dec x (2 ^ 30)) as [|Hgt]; [assumption|].
    rewrite Hbig in Hs by lia. discriminate.
  - intros Hx. exists (2 ^ Z.log2_up x).
    apply Log2CeilingSize_pow2_log2_up; assumption.
Qed.

Lemma Log2CeilingSize_defined_iff_witness :
  ((exists s, upb_Log2CeilingSize Gnuc 32 (2 ^ 30 + 1) = Ret s) <->
   2 ^ 30 + 1 <= 2 ^ 30) /\
  (2 ^ 30 < 2 ^ 30 + 1 ->
   upb_Log2CeilingSize Gnuc 32 (2 ^ 30 + 1) = Undefined).
Proof.
  apply (Log2CeilingSize_defined_iff Gnuc 32 (2 ^ 30 + 1)).
  - unfold loop_fuel. lia.
  - vm_compute. discriminate.
Defined.

(** X8. For 1 <= x <= 2^30 the size returned is at least x, less than
    twice x, and at most 2^30: rounding up never doubles the request and
    never leaves the [int] range. *)
Theorem Log2CeilingSize_less_than_double (cc : compiler) (fuel : nat) (x : Z) :
  (loop_fuel <= fuel)%nat ->
  1 <= x <= 2 ^ 30 ->
  exists s,
    upb_Log2CeilingSize cc fuel x = Ret s /\
    x <= s /\ s < 2 * x /\ s <= 2 ^ 30.
Proof.
  intros Hfuel [Hlo Hhi]. exists (2 ^ Z.log2_up x).
  split; [apply Log2CeilingSize_pow2_log2_up; assumption|].
  pose proof (log2_up_range x Hhi) as Hr.
  split; [apply log2_up_least|].
  split; [|apply pow2_le_30; assumption].
  destruct (Z.eq_dec x 1) as [->|Hne]; [reflexivity|].
  pose proof (Z.log2_up_spec x ltac:(lia)) as [Hbelow _].
  assert (0 < Z.log2_up x) by (apply Z.log2_up_pos; lia).
  replace (Z.log2_up x) with (Z.succ (Z.pred (Z.log2_up x))) at 1 by lia.
  rewrite Z.pow_succ_r by lia. lia.
Qed.

Lemma Log2CeilingSize_less_than_double_witness :
  exists s,
    upb_Log2CeilingSize NonGnuc 32 1025 = Ret s /\
    1025 <= s /\ s < 2 * 1025 /\ s <= 2 ^ 30.
Proof.
  apply (Log2CeilingSize_less_than_double NonGnuc 32 1025).
  - unfold loop_fuel. lia.
  - lia.
Defined.

(** X9. For 1 <= x <= 2^30, upb_Log2CeilingSize returns x itself exactly
    when x is a power of two. *)
Theorem Log2CeilingSize_fixed_point_iff (cc : compiler) (fuel : nat) (x : Z) :
  (loop_fuel <= fuel)%nat ->
  1 <= x <= 2 ^ 30 ->
  (upb_Log2CeilingSize cc fuel x = Ret x <-> exists k, 0 <= k /\ x = 2 ^ k).
Proof.
  intros Hfuel [Hlo Hhi].
  rewrite Log2CeilingSize_pow2_log2_up by assumption. split.
  - intros Heq. exists (Z.log2_up x).
    split; [apply Z.log2_up_nonneg|]. congruence.
  - intros [k [Hk ->]]. rewrite Z.log2_up_pow2 by assumption. reflexivity.
Qed.

Lemma Log2CeilingSize_fixed_point_iff_witness :
  upb_Log2CeilingSize Gnuc 32 4096 = Ret 4096 <->
  exists k, 0 <= k /\ 4096 = 2 ^ k.
Proof.
  apply (Log2CeilingSize_fixed_point_iff Gnuc 32 4096).
  - unfold loop_fuel. lia.
  - lia.
Defined.

(** X10. upb_Log2CeilingSize is monotone on x <= y <= 2^30. *)
Theorem Log2CeilingSize_monotone (cc : compiler) (fuel : nat) (x y : Z) :
  (loop_fuel <= fuel)%nat ->
  x <= y -> y <= 2 ^ 30 ->
  exists a b,
    upb_Log2CeilingSize cc fuel x = Ret a /\
    upb_Log2CeilingSize cc fuel y = Ret b /\
    a <= b.
Proof.
  intros Hfuel Hxy Hy.
  exists (2 ^ Z.log2_up x), (2 ^ Z.log2_up y).
  split; [apply Log2CeilingSize_pow2_log2_up; [assumption|lia]|].
  split; [apply Log2CeilingSize_pow2_log2_up; assumption|].
  apply Z.pow_le_mono_r; [lia|].
  apply Z.log2_up_le_mono. assumption.
Qed.

Lemma Log2CeilingSize_monotone_witness :
  exists a b,
    upb_Log2CeilingSize NonGnuc 32 (-3) = Ret a /\
    upb_Log2CeilingSize NonGnuc 32 17 = Ret b /\
    a <= b.
Proof.
  apply (Log2CeilingSize_monotone NonGnuc 32 (-3) 17).
  - unfold loop_fuel. lia.
  - lia.
  - lia.
Defined.

(** X11. Rounding up to a size does not change the exponent: for
    x <= 2^30, upb_Log2Ceiling (upb_Log2CeilingSize x) = upb_Log2Ceiling x. *)
Theorem Log2Ceiling_of_CeilingSize (cc : compiler) (fuel : nat) (x : Z) :
  (loop_fuel <= fuel)%nat ->
  x <= 2 ^ 30 ->
  exists s n,
    upb_Log2CeilingSize cc fuel x = Ret s /\
    upb_Log2Ceiling cc fuel x = Ret n /\
    upb_Log2Ceiling cc fuel s = Ret n.
Proof.
  intros Hfuel Hx. exists (2 ^ Z.log2_up x), (Z.log2_up x).
  pose proof (log2_up_range x Hx) as Hr.
  split; [apply Log2CeilingSize_pow2_log2_up; assumption|].
  split; [apply Log2Ceiling_log2_up; assumption|].
  rewrite Log2Ceiling_log2_up.
  - rewrite Z.log2_up_pow2 by lia. reflexivity.
  - assumption.
  - apply pow2_le_30. assumption.
Qed.

Lemma Log2Ceiling_of_CeilingSize_witness :
  exists s n,
    upb_Log2CeilingSize Gnuc 32 777 = Ret s /\
    upb_Log2Ceiling Gnuc 32 777 = Ret n /\
    upb_Log2Ceiling Gnuc 32 s = Ret n.
Proof.
  apply (Log2Ceiling_of_CeilingSize Gnuc 32 777).
  - unfold loop_fuel. lia.
  - lia.
Defined.

(** ** The size tables beyond the claims *)

Lemma array_get_outside (t : list Z) (i : Z) :
  i < 0 \/ Z.of_nat (length t) <= i ->
  array_get t i = Undefined.
Proof.
  intros Hi. unfold array_get.
  destruct (Z.ltb_spec i 0) as [|Hnn]; [reflexivity|].
  assert (Hnone : nth_error t (Z.to_nat i) = None)
    by (apply nth_error_None; lia).
  rewrite Hnone. reflexivity.
Qed.

Lemma array_get_inside (t : list Z) (i : Z) :
  0 <= i < Z.of_nat (length t) ->
  exists v, array_get t i = Ret v.
Proof.
  intros Hi. unfold array_get.
  destruct (Z.ltb_spec i 0) as [|Hnn]; [lia|].
  destruct (nth_error t (Z.to_nat i)) as [v|] eqn:Hnth.
  - exists v. reflexivity.
  - apply nth_error_None in Hnth. lia.
Qed.

Lemma array_get_In (t : list Z) (i e : Z) :
  array_get t i = Ret e -> In e t.
Proof.
  unfold array_get. destruct (i <? 0); [discriminate|].
  destruct (nth_error t (Z.to_nat i)) as [v|] eqn:Hnth; [|discriminate].
  intros Heq. injection Heq as <-. eapply nth_error_In, Hnth.
Qed.

Lemma array_get_defined_iff (t : list Z) (i : Z) :
  (exists v, array_get t i = Ret v) <-> 0 <= i < Z.of_nat (length t).
Proof.
  split; [|apply array_get_inside].
  intros [v Hv].
  destruct (Z_lt_ge_dec i 0) as [Hneg|Hnn].
  - rewrite array_get_outside in Hv by lia. discriminate.
  - destruct (Z_lt_ge_dec i (Z.of_nat (length t))) as [|Hge]; [lia|].
    rewrite array_get_outside in Hv by lia. discriminate.
Qed.

(** X12. upb_Log2CTypeSize does no bounds check: it returns a value
    exactly for the integers 1..11, and for any other argument (0 and
    negative values included) the table read is out of bounds. *)
Theorem Log2CTypeSize_defined_iff (w : pointer_width) (c_type : Z) :
  ((exists e, upb_Log2CTypeSize w c_type = Ret e) <-> 1 <= c_type <= 11) /\
  (c_type < 1 \/ 11 < c_type <-> upb_Log2CTypeSize w c_type = Undefined).
Proof.
  unfold upb_Log2CTypeSize.
  assert (Hlen : Z.of_nat (length (upb_Log2CTypeSize_size w)) = 11)
    by reflexivity.
  assert (Hdef := array_get_defined_iff (upb_Log2CTypeSize_size w) (c_type - 1)).
  rewrite Hlen in Hdef.
  split.
  - rewrite Hdef. lia.
  - split.
    + intros Hout. apply array_get_outside. rewrite Hlen. lia.
    + intros Hund.
      destruct (Z_lt_ge_dec c_type 1) as [|Hlo]; [lia|].
      destruct (Z_le_gt_dec c_type 11) as [Hhi|]; [|lia].
      assert (Hex : exists e,
                 array_get (upb_Log2CTypeSize_size w) (c_type - 1) = Ret e)
        by (apply Hdef; lia).
      destruct Hex as [e He]. rewrite He in Hund. discriminate.
Qed.

(** X13. upb_Log2FieldTypeSize does no bounds check: it returns a value
    exactly for the integers 1..18, and for any other argument the table
    read is out of bounds. *)
Theorem Log2FieldTypeSize_defined_iff (w : pointer_width) (field_type : Z) :
  ((exists e, upb_Log2FieldTypeSize w field_type = Ret e) <->
   1 <= field_type <= 18) /\
  (field_type < 1 \/ 18 < field_type <->
   upb_Log2FieldTypeSize w field_type = Undefined).
Proof.
  unfold upb_Log2FieldTypeSize.
  assert (Hlen : Z.of_nat (length (upb_Log2FieldTypeSize_size w)) = 18)
    by reflexivity.
  assert (Hdef := array_get_defined_iff (upb_Log2FieldTypeSize_size w)
                                        (field_type - 1)).
  rewrite Hlen in Hdef.
  split.
  - rewrite Hdef. lia.
  - split.
    + intros Hout. apply array_get_outside. rewrite Hlen. lia.
    + intros Hund.
      destruct (Z_lt_ge_dec field_type 1) as [|Hlo]; [lia|].
      destruct (Z_le_gt_dec field_type 18) as [Hhi|]; [|lia].
      assert (Hex : exists e,
                 array_get (upb_Log2FieldTypeSize_size w) (field_type - 1)
                 = Ret e)
        by (apply Hdef; lia).
      destruct Hex as [e He]. rewrite He in Hund. discriminate.
Qed.

(** X14. Whatever integer it is given, a size class upb_Log2CTypeSize
    returns is 0, 2, 3 or 4 (1, 4, 8 or 16 bytes), never 1, and with
    4-byte pointers it is at most 3. *)
Theorem Log2CTypeSize_range (w : pointer_width) (c_type e : Z) :
  upb_Log2CTypeSize w c_type = Ret e ->
  (e = 0 \/ e = 2 \/ e = 3 \/ e = 4) /\
  (w = Ptr32 -> e <= 3).
Proof.
  intros Hret. apply array_get_In in Hret.
  destruct w; simpl in Hret; split;
    solve [intuition lia | intros; discriminate].
Qed.

Lemma Log2CTypeSize_range_witness :
  (4 = 0 \/ 4 = 2 \/ 4 = 3 \/ 4 = 4) /\ (Ptr64 = Ptr32 -> 4 <= 3).
Proof.
  apply (Log2CTypeSize_range Ptr64 (upb_CType_value kUpb_CType_Bytes) 4).
  reflexivity.
Defined.

(** X15. Whatever integer it is given, a size class upb_Log2FieldTypeSize
    returns is 0, 2, 3 or 4, never 1, and with 4-byte pointers it is at
    most 3. *)
Theorem Log2FieldTypeSize_range (w : pointer_width) (field_type e : Z) :
  upb_Log2FieldTypeSize w field_type = Ret e ->
  (e = 0 \/ e = 2 \/ e = 3 \/ e = 4) /\
  (w = Ptr32 -> e <= 3).
Proof.
  intros Hret. apply array_get_In in Hret.
  destruct w; simpl in Hret; split;
    solve [intuition lia | intros; discriminate].
Qed.

Lemma Log2FieldTypeSize_range_witness :
  (3 = 0 \/ 3 = 2 \/ 3 = 3 \/ 3 = 4) /\ (Ptr32 = Ptr32 -> 3 <= 3).
Proof.
  apply (Log2FieldTypeSize_range Ptr32
           (upb_FieldType_value kUpb_FieldType_String) 3).
  reflexivity.
Defined.

Ltac pointer_width_cases :=
  do 2 eexists;
  split; [reflexivity|]; split; [reflexivity|];
  cbv [UPB_SIZE];
  split; [lia|];
  split;
  [ intros Heq; first [lia | auto 6]
  | intros Hc; first [reflexivity | intuition discriminate] ].

(** X16. Going from 4-byte to 8-byte pointers never shrinks a CType size
    class and raises it by exactly one for Message, String and Bytes, the
    entries written with UPB_SIZE; every other entry is unchanged. *)
Theorem Log2CTypeSize_pointer_width (c : upb_CType) :
  exists e32 e64,
    upb_Log2CTypeSize Ptr32 (upb_CType_value c) = Ret e32 /\
    upb_Log2CTypeSize Ptr64 (upb_CType_value c) = Ret e64 /\
    (e64 = e32 \/ e64 = e32 + 1) /\
    (e64 = e32 + 1 <->
     c = kUpb_CType_Message \/ c = kUpb_CType_String \/ c = kUpb_CType_Bytes).
Proof. destruct c; pointer_width_cases. Qed.

(** X17. Going from 4-byte to 8-byte pointers never shrinks a FieldType
    size class and raises it by exactly one for String, Group, Message and
    Bytes, the entries written with UPB_SIZE; every other entry is
    unchanged. *)
Theorem Log2FieldTypeSize_pointer_width (t : upb_FieldType) :
  exists e32 e64,
    upb_Log2FieldTypeSize Ptr32 (upb_FieldType_value t) = Ret e32 /\
    upb_Log2FieldTypeSize Ptr64 (upb_FieldType_value t) = Ret e64 /\
    (e64 = e32 \/ e64 = e32 + 1) /\
    (e64 = e32 + 1 <->
     t = kUpb_FieldType_String \/ t = kUpb_FieldType_Group \/
     t = kUpb_FieldType_Message \/ t = kUpb_FieldType_Bytes).
Proof. destruct t; pointer_width_cases. Qed.
